(** * Subjective Hallucination Scale (SHS) calculator: scoring and labelling

    Shallow embedding of the scoring, classification and label-lookup code
    of [src/shs-calculator.js] (the stand-alone page) and
    [src/web-components/shs-calculator.js] (the [SHSCalculator] class).

    Numbers.  JavaScript numbers are modelled as exact rationals [Q].  Every
    dimension score and consistency is [k / 4] for a small integer [k], which
    binary floating point represents exactly, and the thresholds and band
    edges are compared against such values, so the model and the program
    take the same branches on every value [calculate] produces.

    Objects.  A JavaScript object literal used as a table ([segmentTexts],
    [SHSCalculator.TRANSLATIONS], ...) is an association list of its own
    properties.  A property read [obj[k]] that misses the own properties
    continues on [Object.prototype], whose members (functions, and the
    prototype object itself for [__proto__]) are truthy, not iterable and
    carry none of the table fields. *)

From stdpp Require Import base gmap strings list pretty.
From Stdlib Require Import Ascii QArith Qabs Qminmax Qround Lqa.

Open Scope Q_scope.

(* ------------------------------------------------------------------ *)
(** ** JavaScript property lookup on object literals *)

(** Property names an object literal inherits from [Object.prototype]. *)
Definition object_prototype_keys : list string :=
  ["constructor"; "hasOwnProperty"; "isPrototypeOf"; "propertyIsEnumerable";
   "toLocaleString"; "toString"; "valueOf"; "__proto__";
   "__defineGetter__"; "__defineSetter__"; "__lookupGetter__";
   "__lookupSetter__"].

(** The value of a property read [obj[k]]: an own property, a member
    inherited from [Object.prototype] (named by its key), or [undefined]. *)
Inductive jsprop (A : Type) : Type :=
| Own (a : A)
| Inherited (k : string)
| Undefined.
Arguments Own {A} a.
Arguments Inherited {A} k.
Arguments Undefined {A}.

Fixpoint assoc {A} (k : string) (l : list (string * A)) : option A :=
  match l with
  | [] => None
  | (k', a) :: rest => if String.eqb k k' then Some a else assoc k rest
  end.

(** [obj[k]] *)
Definition js_get {A} (obj : list (string * A)) (k : string) : jsprop A :=
  match assoc k obj with
  | Some a => Own a
  | None => if bool_decide (k ∈ object_prototype_keys) then Inherited k
            else Undefined
  end.

(** [obj[k] || obj.en]: only [undefined] is falsy among the possible
    values, so the fallback is taken exactly when the read is [undefined]. *)
Definition js_or_en {A} (obj : list (string * A)) (k : string) : jsprop A :=
  match js_get obj k with
  | Undefined => js_get obj "en"
  | p => p
  end.

(** Reading a field [p.f] of the value [p]; [None] is [undefined].  The
    members of [Object.prototype] have none of the table fields. *)
Definition field {A B} (p : jsprop A) (f : A -> B) : option B :=
  match p with
  | Own a => Some (f a)
  | _ => None
  end.

(** A computation that returns a value or throws a [TypeError]. *)
Inductive outcome (A : Type) : Type :=
| Returns (a : A)
| Throws_TypeError.
Arguments Returns {A} a.
Arguments Throws_TypeError {A}.

(** [Array.prototype.join]: [undefined] elements become empty strings. *)
Fixpoint js_join (sep : string) (l : list (option string)) : string :=
  match l with
  | [] => ""
  | [x] => default "" x
  | x :: rest => default "" x +:+ sep +:+ js_join sep rest
  end.

(** [a > b] on numbers. *)
Definition Qgt_bool (a b : Q) : bool := negb (Qle_bool a b).
(** [a < b] on numbers. *)
Definition Qlt_bool (a b : Q) : bool := negb (Qle_bool b a).

(* ------------------------------------------------------------------ *)
(** ** Constant tables *)

Definition CONS_VERY_GOOD : Q := 0.1.
Definition CONS_GOOD : Q := 0.5.

Record segment := mk_segment { seg_min : Q; seg_max : Q; seg_label : string }.

(** [segmentTexts.en] (page) and [TRANSLATIONS.en.segments] (class): the
    two files carry identical copies of the three tables. *)
Definition segments_en : list segment := [
  mk_segment (-1.0) (-0.818) "Severe hallucination risk - critical factual errors";
  mk_segment (-0.818) (-0.636) "Very high hallucination risk - frequent false information";
  mk_segment (-0.636) (-0.454) "High hallucination risk - unreliable outputs";
  mk_segment (-0.454) (-0.272) "Elevated hallucination risk - accuracy concerns";
  mk_segment (-0.272) (-0.090) "Moderate hallucination risk - verify information";
  mk_segment (-0.090) 0.090 "Neutral - balanced factual reliability";
  mk_segment 0.090 0.272 "Slightly positive - generally factual";
  mk_segment 0.272 0.454 "Positive - good factual reliability";
  mk_segment 0.454 0.636 "Strongly positive - low hallucination risk";
  mk_segment 0.636 0.818 "Very strong factual alignment - highly reliable";
  mk_segment 0.818 1.0 "Excellent factual alignment - minimal hallucination risk"
].

Definition segments_de : list segment := [
  mk_segment (-1.0) (-0.818) "Schweres Halluzinationsrisiko - kritische faktische Fehler";
  mk_segment (-0.818) (-0.636) "Sehr hohes Halluzinationsrisiko - häufige falsche Informationen";
  mk_segment (-0.636) (-0.454) "Hohes Halluzinationsrisiko - unzuverlässige Ausgaben";
  mk_segment (-0.454) (-0.272) "Erhöhtes Halluzinationsrisiko - Genauigkeitsbedenken";
  mk_segment (-0.272) (-0.090) "Mäßiges Halluzinationsrisiko - Informationen überprüfen";
  mk_segment (-0.090) 0.090 "Neutral - ausgewogene faktische Zuverlässigkeit";
  mk_segment 0.090 0.272 "Leicht positiv - generell faktisch";
  mk_segment 0.272 0.454 "Positiv - gute faktische Zuverlässigkeit";
  mk_segment 0.454 0.636 "Stark positiv - niedriges Halluzinationsrisiko";
  mk_segment 0.636 0.818 "Sehr starke faktische Übereinstimmung - hochzuverlässig";
  mk_segment 0.818 1.0 "Ausgezeichnete faktische Übereinstimmung - minimales Halluzinationsrisiko"
].

Definition segments_fr : list segment := [
  mk_segment (-1.0) (-0.818) "Risque d'hallucination sévère - erreurs factuelles critiques";
  mk_segment (-0.818) (-0.636) "Très haut risque d'hallucination - informations fausses fréquentes";
  mk_segment (-0.636) (-0.454) "Haut risque d'hallucination - sorties peu fiables";
  mk_segment (-0.454) (-0.272) "Risque d'hallucination élevé - préoccupations de précision";
  mk_segment (-0.272) (-0.090) "Risque d'hallucination modéré - vérifier les informations";
  mk_segment (-0.090) 0.090 "Neutre - fiabilité factuelle équilibrée";
  mk_segment 0.090 0.272 "Légèrement positif - généralement factuel";
  mk_segment 0.272 0.454 "Positif - bonne fiabilité factuelle";
  mk_segment 0.454 0.636 "Fortement positif - faible risque d'hallucination";
  mk_segment 0.636 0.818 "Alignement factuel très fort - hautement fiable";
  mk_segment 0.818 1.0 "Alignement factuel excellent - risque d'hallucination minimal"
].

(** [segmentTexts] of the page. *)
Definition segmentTexts : list (string * list segment) :=
  [("en", segments_en); ("de", segments_de); ("fr", segments_fr)].

Record cons_texts := mk_cons_texts {
  cons_veryGood : string; cons_good : string;
  cons_inconsistent : string; cons_review : string }.

Record breakdown_texts := mk_breakdown_texts {
  bd_noConsistent : string; bd_veryGood : string; bd_good : string }.

Definition consistency_en := mk_cons_texts
  "Consistency is very good." "Consistency is good."
  "Warning: responses are inconsistent (no consistent statement for at least one dimension)."
  "At least one pair is inconsistent; review those answers.".
Definition consistency_de := mk_cons_texts
  "Konsistenz ist sehr gut." "Konsistenz ist gut."
  "Warnung: Antworten sind inkonsistent (keine konsistente Aussage für mindestens eine Dimension)."
  "Mindestens ein Paar ist inkonsistent; überprüfe diese Antworten.".
Definition consistency_fr := mk_cons_texts
  "La cohérence est très bonne." "La cohérence est bonne."
  "Avertissement: les réponses sont incohérentes (aucune déclaration cohérente pour au moins une dimension)."
  "Au moins une paire est incohérente; examinez ces réponses.".

(** [consistencyTexts] of the page. *)
Definition consistencyTexts : list (string * cons_texts) :=
  [("en", consistency_en); ("de", consistency_de); ("fr", consistency_fr)].

Definition breakdown_en := mk_breakdown_texts
  "Consistency: no consistent statement for this dimension."
  "Consistency: very good." "Consistency: good.".
Definition breakdown_de := mk_breakdown_texts
  "Konsistenz: keine konsistente Aussage für diese Dimension."
  "Konsistenz: sehr gut." "Konsistenz: gut.".
Definition breakdown_fr := mk_breakdown_texts
  "Cohérence: aucune déclaration cohérente pour cette dimension."
  "Cohérence: très bonne." "Cohérence: bonne.".

(** [breakdownConsistencyTexts] of the page. *)
Definition breakdownConsistencyTexts : list (string * breakdown_texts) :=
  [("en", breakdown_en); ("de", breakdown_de); ("fr", breakdown_fr)].

(** The fields of [SHSCalculator.TRANSLATIONS.<lang>] that the scoring and
    classification code reads. *)
Record translations := mk_translations {
  t_alert : string;
  t_consistency : cons_texts;
  t_breakdownConsistency : breakdown_texts;
  t_segments : list segment }.

Definition TRANSLATIONS : list (string * translations) := [
  ("en", mk_translations "Please answer all questions."
           consistency_en breakdown_en segments_en);
  ("de", mk_translations "Bitte alle Fragen beantworten."
           consistency_de breakdown_de segments_de);
  ("fr", mk_translations "Veuillez répondre à toutes les questions."
           consistency_fr breakdown_fr segments_fr)].

Record dimension_pair := mk_pair {
  pair_key : string; pair_key_de : string; pair_key_fr : string;
  pair_a : string; pair_b : string }.

(** [pairs] (page) and [SHSCalculator.DIMENSION_PAIRS] (class). *)
Definition DIMENSION_PAIRS : list dimension_pair := [
  mk_pair "Factual Accuracy" "Faktische Genauigkeit" "Précision factuelle" "q1" "q2";
  mk_pair "Source Reliability" "Quellenzuverlässigkeit" "Fiabilité des sources" "q3" "q4";
  mk_pair "Logical Coherence" "Logische Kohärenz" "Cohérence logique" "q5" "q6";
  mk_pair "Deceptiveness" "Täuschungspotenzial" "Potentiel de tromperie" "q7" "q8";
  mk_pair "Responsiveness to Guidance" "Reaktionsfähigkeit auf Anleitung"
          "Réactivité aux conseils" "q9" "q10"].

(* ------------------------------------------------------------------ *)
(** ** Segment text lookup *)

(** [Math.max(-1, Math.min(1, value))] *)
Definition clamp (value : Q) : Q := Qmax (-1) (Qmin 1 value).

(** [clamped >= seg.min && clamped <= seg.max] *)
Definition seg_matches (clamped : Q) (seg : segment) : bool :=
  Qle_bool (seg_min seg) clamped && Qle_bool clamped (seg_max seg).

(** The loop shared by both [getSegmentText]s: the first matching segment's
    label, else [segments[segments.length - 1].label] (which throws on an
    empty table). *)
Definition search_segments (segs : list segment) (clamped : Q) : outcome string :=
  match List.find (seg_matches clamped) segs with
  | Some seg => Returns (seg_label seg)
  | None =>
      match last segs with
      | Some seg => Returns (seg_label seg)
      | None => Throws_TypeError
      end
  end.

(** [getSegmentText(value, lang)] of the page: [for (const seg of texts)]
    throws when [texts] is not an array. *)
Definition getSegmentText (value : Q) (lang : string) : outcome string :=
  let clamped := clamp value in
  match js_or_en segmentTexts lang with
  | Own texts => search_segments texts clamped
  | _ => Throws_TypeError
  end.

(** [SHSCalculator.getTranslations()] with [this.currentLang = lang]. *)
Definition getTranslations (lang : string) : jsprop translations :=
  js_or_en TRANSLATIONS lang.

(** [SHSCalculator.getSegmentText(value)] with [this.currentLang = lang]:
    [for (const seg of t.segments)] throws when [t.segments] is
    [undefined]. *)
Definition getSegmentText_wc (value : Q) (lang : string) : outcome string :=
  let clamped := clamp value in
  match field (getTranslations lang) t_segments with
  | Some segs => search_segments segs clamped
  | None => Throws_TypeError
  end.

(* ------------------------------------------------------------------ *)
(** ** Consistency classification *)

Inductive level := VeryGood | Good | Inconsistent.

(** The branch [consistencySummary] / [getConsistencySummary] takes on the
    overall consistency:
    [<= CONS_VERY_GOOD] / [<= CONS_GOOD] / otherwise. *)
Definition summary_level (overallCons : Q) : level :=
  if Qle_bool (Qabs overallCons) CONS_VERY_GOOD then VeryGood
  else if Qle_bool (Qabs overallCons) CONS_GOOD then Good
  else Inconsistent.

(** The branch the breakdown text takes on one dimension's consistency
    (page submit handler and [SHSCalculator.displayResults]):
    [> CONS_GOOD] / [< CONS_VERY_GOOD] / otherwise. *)
Definition breakdown_level (cons : Q) : level :=
  if Qgt_bool (Qabs cons) CONS_GOOD then Inconsistent
  else if Qlt_bool (Qabs cons) CONS_VERY_GOOD then VeryGood
  else Good.

(** The message array [msgs] of the consistency summary, given the read
    [get f] of a field [f] of the resolved text table ([texts.f] on the page,
    [t.consistency.f] in the class). *)
Definition consistency_msgs (get : (cons_texts -> string) -> option string)
    (overallCons : Q) (consList : list Q) : list (option string) :=
  let first :=
    match summary_level overallCons with
    | VeryGood => get cons_veryGood
    | Good => get cons_good
    | Inconsistent => get cons_inconsistent
    end in
  let outliers := length (List.filter (fun c => Qgt_bool (Qabs c) CONS_GOOD) consList) in
  [first] ++ (if Nat.ltb 0 outliers then [get cons_review] else []).

(** [consistencySummary(overallCons, consList, lang)] of the page. *)
Definition consistencySummary (overallCons : Q) (consList : list Q) (lang : string) : string :=
  js_join " " (consistency_msgs (field (js_or_en consistencyTexts lang))
                 overallCons consList).

(** [SHSCalculator.getConsistencySummary(overallCons, consList)]: reading
    [t.consistency.veryGood] throws when [t.consistency] is [undefined]. *)
Definition getConsistencySummary (overallCons : Q) (consList : list Q) (lang : string)
    : outcome string :=
  match getTranslations lang with
  | Own t => Returns (js_join " " (consistency_msgs
                        (fun f => Some (f (t_consistency t))) overallCons consList))
  | _ => Throws_TypeError
  end.

(** The breakdown consistency text of one dimension. *)
Definition breakdown_cons_text (get : (breakdown_texts -> string) -> option string)
    (cons : Q) : option string :=
  match breakdown_level cons with
  | Inconsistent => get bd_noConsistent
  | VeryGood => get bd_veryGood
  | Good => get bd_good
  end.

(* ------------------------------------------------------------------ *)
(** ** Collecting the answers and computing the scores *)

(** The question ids [q${i}] for [i = 1..10]. *)
Definition question_ids : list string :=
  map (fun i : nat => "q" +:+ pretty i) (seq 1 10).

(** The form: [checked q] is [parseInt(sel.value, 10)] for the checked
    radio of question [q] (its values are rendered from [-2..2]), or [None]
    when no radio of [q] is checked. *)
Definition form := string -> option Z.

(** The collection loop: stops at the first unanswered question. *)
Fixpoint collect_go (checked : form) (ids : list string) (vals : gmap string Z)
    : option (gmap string Z) :=
  match ids with
  | [] => Some vals
  | q :: rest =>
      match checked q with
      | None => None
      | Some v => collect_go checked rest (<[q := v]> vals)
      end
  end.

Definition collect (checked : form) : option (gmap string Z) :=
  collect_go checked question_ids ∅.

(** [SHSCalculator.getDimensionLabel(pair)] *)
Definition getDimensionLabel (lang : string) (p : dimension_pair) : string :=
  if String.eqb lang "de" then pair_key_de p
  else if String.eqb lang "fr" then pair_key_fr p
  else pair_key p.

Record breakdown_entry := mk_entry {
  dimension : dimension_pair; score : Q; consistency : Q; entry_label : string }.

Record results := mk_results {
  overall : Q; overallConsistency : Q;
  breakdown : list breakdown_entry; responses : gmap string Z }.

(** One iteration of [DIMENSION_PAIRS.forEach].  The reads [vals[p.a]] and
    [vals[p.b]] always hit after a completed collection; a miss would be
    [undefined] and is [None] here. *)
Definition dim_entry (lang : string) (vals : gmap string Z) (p : dimension_pair)
    : option breakdown_entry :=
  va ← vals !! pair_a p;
  vb ← vals !! pair_b p;
  Some (mk_entry p (inject_Z (va - vb) / 4) (inject_Z (va + vb) / 4)
          (getDimensionLabel lang p)).

(** [xs.reduce((s, x) => s + x, 0) / xs.length] *)
Definition js_mean (xs : list Q) : Q :=
  fold_left Qplus xs 0 / inject_Z (Z.of_nat (length xs)).

Inductive calc_outcome :=
| Alerted (msg : option string)
| Calculated (r : results).

(** [SHSCalculator.calculate()] with [this.currentLang = lang]; the page's
    submit handler computes the same numbers. *)
Definition calculate (lang : string) (checked : form) : option calc_outcome :=
  match collect checked with
  | None => Some (Alerted (field (getTranslations lang) t_alert))
  | Some vals =>
      bd ← mapM (dim_entry lang vals) DIMENSION_PAIRS;
      let scores := map score bd in
      let consistencies := map consistency bd in
      Some (Calculated (mk_results (js_mean scores) (js_mean consistencies) bd vals))
  end.

(* ------------------------------------------------------------------ *)
(** ** Gauge *)

(** [setGauge(value)] (page and class): [(clampedValue + 1) / 2] with
    [clampedValue = Math.max(-1, Math.min(1, parseFloat(value)))];
    [parseFloat] of a number reads the number itself back. *)
Definition gauge_normalized (value : Q) : Q := (clamp value + 1) / 2.

(** [needleAngle = startAngle + normalizedValue * totalArc] *)
Definition needle_angle (value : Q) : Q := -135 + gauge_normalized value * 270.

(** [Math.max(0, Math.min(10, Math.floor(normalizedValue * 11)))]: the
    index of the segment [setGauge] marks [active]. *)
Definition active_segment_index (value : Q) : Z :=
  Z.max 0 (Z.min 10 (Qfloor (gauge_normalized value * 11))).

(** [createSegment(index)]: [segmentAngle = totalArc / totalSegments] and
    the start angle [angle1 = startAngle + index * segmentAngle]; the
    segment's path runs from [angle1] to [angle1 + segmentAngle - 2]. *)
Definition segmentAngle : Q := 270 / 11.
Definition segment_angle1 (index : Z) : Q := -135 + inject_Z index * segmentAngle.
Definition segment_angle2 (index : Z) : Q := segment_angle1 index + segmentAngle - 2.

(* ------------------------------------------------------------------ *)
(** ** Consistency bar colour (page) *)

(** [barColorConsistency(v)] *)
Definition barColorConsistency (v : Q) : string :=
  let a := Qabs v in
  if Qle_bool a 0.2 then "#16a34a"
  else if Qle_bool a 0.5 then "#f59e0b"
  else "#dc2626".

(* ------------------------------------------------------------------ *)
(** ** Number formatting *)

Fixpoint zeros (n : nat) : string :=
  match n with
  | O => ""
  | S n => String.String "0"%char (zeros n)
  end.

(** [x.toFixed(2)] (ECMAScript, Number.prototype.toFixed): the sign, then
    the integer [n] for which [n / 100 - |x|] is closest to zero (the
    larger one on a tie), written with at least three digits and a point
    before the last two.  For [|x| >= 10^21] the number is printed by
    [ToString] in exponent notation, which is not modelled ([None]). *)
Definition toFixed2 (x : Q) : option string :=
  let s := if Qlt_bool x 0 then "-" else "" in
  let ax := if Qlt_bool x 0 then - x else x in
  if Qle_bool (inject_Z (10 ^ 21)) ax then None else
  let n := Qfloor (ax * 100 + (1 # 2)) in
  let m := if Z.eqb n 0 then "0" else pretty (Z.to_N n) in
  let m := if Nat.leb (String.length m) 2 then zeros (3 - String.length m) +:+ m else m in
  let k := String.length m in
  Some (s +:+ String.substring 0 (k - 2) m +:+ "." +:+ String.substring (k - 2) 2 m).

(** [formatVal(v)] (page) and [formatValue(v)] (class): [v.toFixed(2)]. *)
Definition formatVal (v : Q) : option string := toFixed2 v.

(** The value of a decimal digit. *)
Definition digit_value (c : Ascii.ascii) : option Z :=
  let n := Ascii.nat_of_ascii c in
  if Nat.leb 48 n && Nat.leb n 57 then Some (Z.of_nat (n - 48)) else None.

(** The longest prefix of decimal digits: its value, its length and the
    rest of the string. *)
Fixpoint read_digits (s : string) (acc : Z) (len : nat) : Z * nat * string :=
  match s with
  | String.String c rest =>
      match digit_value c with
      | Some d => read_digits rest (acc * 10 + d) (S len)
      | None => (acc, len, s)
      end
  | String.EmptyString => (acc, len, s)
  end.

(** The number a numeral [-?digits.digits] denotes: how a reader takes a
    displayed value. *)
Definition decimal_value (s : string) : option Q :=
  let '(neg, s1) :=
    match s with
    | String.String "-"%char rest => (true, rest)
    | _ => (false, s)
    end in
  match read_digits s1 0 0 with
  | (i, S _, String.String "."%char rest) =>
      match read_digits rest 0 0 with
      | (f, S l, String.EmptyString) =>
          let q := inject_Z i + inject_Z f / inject_Z (10 ^ Z.of_nat (S l)) in
          Some (if neg then - q else q)
      | _ => None
      end
  | _ => None
  end.

(* ------------------------------------------------------------------ *)
(** ** The radio inputs *)





(* ------------------------------------------------------------------ *)
(** ** Constructor options of [SHSCalculator] *)

(** Values an [options] property can hold ([NaN] aside). *)
Inductive jsval :=
| JUndefined
| JNull
| JBool (b : bool)
| JNumber (q : Q)
| JString (s : string)
| JObject.

(** JavaScript truthiness. *)
Definition truthy (v : jsval) : bool :=
  match v with
  | JUndefined | JNull => false
  | JBool b => b
  | JNumber q => negb (Qeq_bool q 0)
  | JString s => negb (String.eqb s "")
  | JObject => true
  end.

(** [a || b] *)
Definition js_or (a b : jsval) : jsval := if truthy a then a else b.

(** [v !== false] *)
Definition not_false (v : jsval) : bool :=
  match v with
  | JBool false => false
  | _ => true
  end.


(** [options.k] for the own properties [o] of [options] ([options = {}]
    when it is omitted). *)
Definition opt (o : gmap string jsval) (k : string) : jsval := default JUndefined (o !! k).

(** [this.options = { language: options.language || 'en',
    showGauge: options.showGauge !== false,
    showConsistency: options.showConsistency !== false, ...options }]:
    the spread copies every own property of [options] over the three
    computed ones. *)
Definition init_options (options : gmap string jsval) : gmap string jsval :=
  options ∪
    <["language" := js_or (opt options "language") (JString "en")]>
    (<["showGauge" := JBool (not_false (opt options "showGauge"))]>
    (<["showConsistency" := JBool (not_false (opt options "showConsistency"))]> ∅)).

(** [this.options.showGauge ? ... : ''] in [render], and the tests before
    [renderGaugeBase()] and [setGauge()]. *)
Definition gauge_shown (options : gmap string jsval) : bool :=
  truthy (opt (init_options options) "showGauge").

(** [this.options.showConsistency ? ... : ''] in [render] and the test in
    [displayResults]. *)
Definition consistency_shown (options : gmap string jsval) : bool :=
  truthy (opt (init_options options) "showConsistency").

(** [this.currentLang = this.options.language] *)
Definition initial_language (options : gmap string jsval) : jsval :=
  opt (init_options options) "language".

(* ------------------------------------------------------------------ *)
(** ** An [SHSCalculator] instance *)

(** What the public methods read and write: [this.currentLang],
    [this.responses], [this.results] and, per question, the value of the
    checked radio of the rendered form. *)
Record wc_state := mk_wc_state {
  currentLang : string;
  wc_responses : gmap string Z;
  wc_results : option results;
  wc_form : form }.

(** A freshly rendered form: no radio checked. *)
Definition empty_form : form := fun _ => None.

(** [render()] reads [t.resultTitles.overall] of [t = getTranslations()],
    so it throws unless the translation lookup finds a table. *)
Definition render_ok (lang : string) : bool :=
  match getTranslations lang with
  | Own _ => true
  | _ => false
  end.

(** The state after [new SHSCalculator(id, { language: lang })]. *)
Definition wc_init (lang : string) : wc_state := mk_wc_state lang ∅ None empty_form.

(** [setLanguage(lang)]: [this.currentLang = lang], then [render()]
    replaces the form by one with no radio checked; when [render()] throws,
    the old form stays. *)
Definition setLanguage (lang : string) (st : wc_state) : wc_state * outcome unit :=
  if render_ok lang
  then (mk_wc_state lang (wc_responses st) (wc_results st) empty_form, Returns tt)
  else (mk_wc_state lang (wc_responses st) (wc_results st) (wc_form st), Throws_TypeError).

(** [calculate()] on an instance: an alert leaves the state as it is; a
    result is stored in [this.results] before [displayResults()] runs. *)
Definition wc_calculate (st : wc_state) : option wc_state :=
  o ← calculate (currentLang st) (wc_form st);
  match o with
  | Alerted _ => Some st
  | Calculated r =>
      Some (mk_wc_state (currentLang st) (wc_responses st) (Some r) (wc_form st))
  end.

(** [reset()]: [this.responses = {}], [this.results = null], and every
    radio unchecked. *)
Definition reset (st : wc_state) : wc_state :=
  mk_wc_state (currentLang st) ∅ None empty_form.

(** [getResults()] *)
Definition getResults (st : wc_state) : option results := wc_results st.

(** The user checks a radio of question [q] whose value parses to [n]:
    the radios of a question share a name, so it replaces the previous
    choice. *)
Definition check_radio (q : string) (n : Z) (st : wc_state) : wc_state :=
  mk_wc_state (currentLang st) (wc_responses st) (wc_results st)
    (fun q' => if String.eqb q' q then Some n else wc_form st q').

(** The user checks radios one after the other: question [fst], parsed
    value [snd]. *)
Definition check_radios (l : list (string * Z)) (st : wc_state) : wc_state :=
  fold_left (fun s qn => check_radio (fst qn) (snd qn) s) l st.



(* ================================================================== *)
(** * Properties *)

(** ** Comparison helpers *)

Lemma Qle_bool_false (x y : Q) : Qle_bool x y = false -> y < x.
Proof.
  intros H. apply Qnot_le_lt. intros H'. apply Qle_bool_iff in H'. congruence.
Qed.

Lemma Qgt_bool_iff (x y : Q) : Qgt_bool x y = true <-> y < x.
Proof.
  unfold Qgt_bool. destruct (Qle_bool x y) eqn:E; simpl; split; intros H.
  - discriminate.
  - apply Qle_bool_iff in E. exfalso. apply (Qlt_not_le _ _ H E).
  - apply Qle_bool_false. exact E.
  - reflexivity.
Qed.

(** Split every [Qle_bool] test of the goal into its two outcomes. *)
Ltac qle_cases :=
  repeat match goal with
  | |- context [Qle_bool ?a ?b] =>
      let E := fresh "E" in
      destruct (Qle_bool a b) eqn:E;
      [apply Qle_bool_iff in E | apply Qle_bool_false in E]
  end.

(** ** Consistency levels *)

(** Away from the single magnitude [0.1] the summary and the breakdown
    choose the same level. *)
Lemma levels_agree_off_tenth (v : Q) :
  ~ Qabs v == 0.1 -> summary_level v = breakdown_level v.
Proof.
  intros Hne. unfold summary_level, breakdown_level, Qgt_bool, Qlt_bool,
    CONS_VERY_GOOD, CONS_GOOD.
  qle_cases; simpl; try reflexivity; exfalso; lra.
Qed.

(** In particular on every multiple of [0.25], the only values
    [calculate] gives a dimension consistency. *)
Lemma levels_agree_quarters (k : Z) :
  summary_level (inject_Z k * 0.25) = breakdown_level (inject_Z k * 0.25).
Proof.
  apply levels_agree_off_tenth. unfold Qabs, inject_Z, Qmult, Qeq. simpl. lia.
Qed.

(** C5: the boundary values [0.0], [0.5] and [0.51] are classified
    [very_good], [good] and [inconsistent], both by the consistency summary
    and by the per-dimension breakdown. *)
Theorem consistency_level_boundaries :
  summary_level 0.0 = VeryGood /\ breakdown_level 0.0 = VeryGood /\
  summary_level 0.5 = Good /\ breakdown_level 0.5 = Good /\
  summary_level 0.51 = Inconsistent /\ breakdown_level 0.51 = Inconsistent.
Proof. repeat split; vm_compute; reflexivity. Qed.

(** C3: the per-dimension classifier and the overall-consistency
    classifier differ at [0.1]: the summary tests [<= CONS_VERY_GOOD], the
    breakdown tests [< CONS_VERY_GOOD]. *)
Theorem dimension_vs_summary_level_at_tenth :
  summary_level 0.1 = VeryGood /\ breakdown_level 0.1 = Good.
Proof. split; vm_compute; reflexivity. Qed.

(** ** The review flag of the consistency summary *)

Lemma ltb_length_filter {A} (f : A -> bool) (l : list A) :
  Nat.ltb 0 (length (List.filter f l)) = existsb f l.
Proof.
  induction l as [|x l IH]; simpl; [reflexivity|].
  destruct (f x); simpl; [reflexivity | exact IH].
Qed.

Lemma existsb_outlier (cs : list Q) :
  existsb (fun c => Qgt_bool (Qabs c) CONS_GOOD) cs = true <->
  Exists (fun c => CONS_GOOD < Qabs c) cs.
Proof.
  rewrite existsb_exists, List.Exists_exists. split.
  - intros (c & Hin & Hc). exists c. split; [exact Hin|].
    apply Qgt_bool_iff. exact Hc.
  - intros (c & Hin & Hc). exists c. split; [exact Hin|].
    apply Qgt_bool_iff. exact Hc.
Qed.

(** C6: whatever the overall consistency [overallCons] and whatever its
    own level, the summary messages are the message for [overallCons]
    alone, followed by the review message exactly when some dimension
    consistency [c] has [|c| > 0.5]. *)
Theorem consistency_review_flag
    (get : (cons_texts -> string) -> option string) (overallCons : Q) (consList : list Q) :
  (Exists (fun c => CONS_GOOD < Qabs c) consList ->
     consistency_msgs get overallCons consList =
     consistency_msgs get overallCons [] ++ [get cons_review]) /\
  (~ Exists (fun c => CONS_GOOD < Qabs c) consList ->
     consistency_msgs get overallCons consList = consistency_msgs get overallCons []).
Proof.
  unfold consistency_msgs. rewrite ltb_length_filter. simpl.
  split; intros H.
  - apply existsb_outlier in H. rewrite H. reflexivity.
  - destruct (existsb _ consList) eqn:E; [|reflexivity].
    exfalso. apply H. apply existsb_outlier. exact E.
Qed.

(** ** The collection loop *)

Lemma collect_go_lookup_other (checked : form) (ids : list string)
    (m m' : gmap string Z) (q : string) :
  collect_go checked ids m = Some m' -> q ∉ ids -> m' !! q = m !! q.
Proof.
  revert m. induction ids as [|q0 rest IH]; intros m Hc Hq; simpl in Hc.
  - injection Hc as <-. reflexivity.
  - destruct (checked q0) as [v|]; [|discriminate].
    rewrite (IH _ Hc) by set_solver.
    apply lookup_insert_ne. set_solver.
Qed.

Lemma collect_go_lookup (checked : form) (ids : list string)
    (m m' : gmap string Z) (q : string) :
  collect_go checked ids m = Some m' -> q ∈ ids -> m' !! q = checked q.
Proof.
  revert m. induction ids as [|q0 rest IH]; intros m Hc Hq; simpl in Hc.
  - set_solver.
  - destruct (checked q0) as [v|] eqn:Ev; [|discriminate].
    destruct (decide (q ∈ rest)) as [Hr|Hr].
    + exact (IH _ Hc Hr).
    + assert (q = q0) as -> by set_solver.
      rewrite (collect_go_lookup_other _ _ _ _ _ Hc Hr).
      rewrite lookup_insert_eq. symmetry. exact Ev.
Qed.

Lemma collect_go_answered (checked : form) (ids : list string) (m : gmap string Z) :
  (forall q, q ∈ ids -> is_Some (checked q)) ->
  exists m', collect_go checked ids m = Some m'.
Proof.
  revert m. induction ids as [|q0 rest IH]; intros m Hall; simpl.
  - eauto.
  - destruct (Hall q0) as [v Hv]; [set_solver|]. rewrite Hv.
    apply IH. intros q Hq. apply Hall. set_solver.
Qed.

Lemma collect_go_missing (checked : form) (ids : list string) (m : gmap string Z) (q : string) :
  q ∈ ids -> checked q = None -> collect_go checked ids m = None.
Proof.
  revert m. induction ids as [|q0 rest IH]; intros m Hq Hn; simpl.
  - set_solver.
  - destruct (checked q0) as [v|] eqn:Ev; [|reflexivity].
    apply IH; [|exact Hn].
    apply elem_of_cons in Hq as [->|Hq]; [congruence|exact Hq].
Qed.

Lemma question_ids_eq :
  question_ids = ["q1"; "q2"; "q3"; "q4"; "q5"; "q6"; "q7"; "q8"; "q9"; "q10"].
Proof. vm_compute. reflexivity. Qed.

(** ** The calculation on a fully answered form *)

Section Answered.

Variable lang : string.
Variable checked : form.
Variable resp : string -> Z.
Hypothesis Hall : forall q, q ∈ question_ids -> checked q = Some (resp q).

Definition expected_entry (p : dimension_pair) : breakdown_entry :=
  mk_entry p (inject_Z (resp (pair_a p) - resp (pair_b p)) / 4)
    (inject_Z (resp (pair_a p) + resp (pair_b p)) / 4) (getDimensionLabel lang p).

Lemma collect_answered :
  exists vals, collect checked = Some vals /\
    forall q, q ∈ question_ids -> vals !! q = Some (resp q).
Proof.
  destruct (collect_go_answered checked question_ids ∅) as [vals Hv].
  { intros q Hq. rewrite (Hall q Hq). eauto. }
  exists vals. split; [exact Hv|].
  intros q Hq. rewrite (collect_go_lookup _ _ _ _ _ Hv Hq). apply Hall, Hq.
Qed.

Lemma mapM_dim_entry (vals : gmap string Z) (ps : list dimension_pair) :
  (forall q, q ∈ question_ids -> vals !! q = Some (resp q)) ->
  Forall (fun p => pair_a p ∈ question_ids /\ pair_b p ∈ question_ids) ps ->
  mapM (dim_entry lang vals) ps = Some (map expected_entry ps).
Proof.
  intros Hv. induction ps as [|p ps IH]; intros Hps; [reflexivity|].
  apply Forall_cons in Hps as [[Ha Hb] Hps].
  assert (dim_entry lang vals p = Some (expected_entry p)) as Hp.
  { unfold dim_entry. rewrite (Hv _ Ha), (Hv _ Hb). reflexivity. }
  simpl. rewrite Hp, (IH Hps). reflexivity.
Qed.

Lemma pairs_in_question_ids :
  Forall (fun p => pair_a p ∈ question_ids /\ pair_b p ∈ question_ids) DIMENSION_PAIRS.
Proof. rewrite question_ids_eq. repeat constructor; set_solver. Qed.

Lemma calculate_answered :
  exists vals, calculate lang checked =
    Some (Calculated (mk_results
      (js_mean (map score (map expected_entry DIMENSION_PAIRS)))
      (js_mean (map consistency (map expected_entry DIMENSION_PAIRS)))
      (map expected_entry DIMENSION_PAIRS) vals)).
Proof.
  destruct collect_answered as (vals & Hc & Hv).
  exists vals. unfold calculate. rewrite Hc. cbv beta iota.
  rewrite (mapM_dim_entry vals DIMENSION_PAIRS Hv pairs_in_question_ids).
  reflexivity.
Qed.

End Answered.

(** ** Numeric results *)

Lemma js_mean_five (x1 x2 x3 x4 x5 : Q) :
  js_mean [x1; x2; x3; x4; x5] == (x1 + x2 + x3 + x4 + x5) * (1#5).
Proof.
  unfold js_mean, Qdiv. cbn [fold_left length].
  change (Qinv (inject_Z (Z.of_nat 5))) with (1#5). ring.
Qed.

Lemma inject_Z_sub (x y : Z) : inject_Z (x - y) == inject_Z x - inject_Z y.
Proof. unfold Qeq, inject_Z. simpl. lia. Qed.

Lemma inject_Z_range (z : Z) : (-2 <= z <= 2)%Z -> -2 <= inject_Z z <= 2.
Proof.
  intros Hz. change (-2) with (inject_Z (-2)). change 2 with (inject_Z 2).
  rewrite <- !Zle_Qle. lia.
Qed.

Lemma expected_entry_quarters (lang : string) (resp : string -> Z) (p : dimension_pair) :
  (-2 <= resp (pair_a p) <= 2)%Z -> (-2 <= resp (pair_b p) <= 2)%Z ->
  let e := expected_entry lang resp p in
  ((exists k : Z, score e == inject_Z k * 0.25) /\ -1 <= score e <= 1) /\
  ((exists k : Z, consistency e == inject_Z k * 0.25) /\ -1 <= consistency e <= 1).
Proof.
  intros Ha Hb. cbv zeta. unfold expected_entry. cbn [score consistency].
  apply inject_Z_range in Ha as [Ha1 Ha2].
  apply inject_Z_range in Hb as [Hb1 Hb2].
  split; split.
  - exists (resp (pair_a p) - resp (pair_b p))%Z. field.
  - unfold Qdiv. rewrite inject_Z_sub. change (Qinv 4) with (1#4). lra.
  - exists (resp (pair_a p) + resp (pair_b p))%Z. field.
  - unfold Qdiv. rewrite inject_Z_plus. change (Qinv 4) with (1#4). lra.
Qed.

Lemma js_mean_sum (xs : list Q) :
  length xs = 5%nat -> js_mean xs == fold_right Qplus 0 xs / 5.
Proof.
  intros Hl. destruct xs as [|x1 [|x2 [|x3 [|x4 [|x5 [|]]]]]]; try discriminate.
  rewrite js_mean_five. cbn [fold_right]. field.
Qed.

Lemma js_mean_range (xs : list Q) :
  length xs = 5%nat -> Forall (fun x => -1 <= x <= 1) xs -> -1 <= js_mean xs <= 1.
Proof.
  intros Hl Hf. destruct xs as [|x1 [|x2 [|x3 [|x4 [|x5 [|]]]]]]; try discriminate.
  rewrite js_mean_five.
  repeat match goal with
         | H : Forall _ (_ :: _) |- _ => apply Forall_cons in H as [[? ?] H]
         end.
  lra.
Qed.

(** Scenario 3 of the specification as a filled-in form. *)
Definition scenario3_answers : list (string * Z) :=
  [("q1", 2); ("q2", -2); ("q3", 1); ("q4", -1); ("q5", 2);
   ("q6", -2); ("q7", 1); ("q8", -1); ("q9", 1); ("q10", -1)]%Z.
Definition scenario3 : form := fun q => assoc q scenario3_answers.
Definition scenario3_resp (q : string) : Z := default 0%Z (assoc q scenario3_answers).

Lemma scenario3_answered :
  forall q, q ∈ question_ids -> scenario3 q = Some (scenario3_resp q).
Proof.
  intros q Hq. rewrite question_ids_eq in Hq.
  repeat (apply elem_of_cons in Hq as [->|Hq]; [reflexivity|]).
  apply elem_of_nil in Hq. contradiction.
Qed.

Lemma scenario3_range :
  forall q, q ∈ question_ids -> (-2 <= scenario3_resp q <= 2)%Z.
Proof.
  intros q Hq. rewrite question_ids_eq in Hq.
  repeat (apply elem_of_cons in Hq as [->|Hq]; [vm_compute; split; discriminate|]).
  apply elem_of_nil in Hq. contradiction.
Qed.

(** C1: on a form where every question [q1..q10] is answered, [calculate]
    returns a result whose breakdown follows the five pairs in table order,
    with [score = (response[a] - response[b]) / 4] and
    [consistency = (response[a] + response[b]) / 4] for each pair, and whose
    overall score and overall consistency are the exact means of the five
    dimension scores and consistencies. *)
Theorem calculate_dimension_scores (lang : string) (checked : form) (resp : string -> Z)
    (Hall : forall q, q ∈ question_ids -> checked q = Some (resp q)) :
  exists r, calculate lang checked = Some (Calculated r) /\
    map (fun e => (pair_a (dimension e), pair_b (dimension e))) (breakdown r) =
      [("q1", "q2"); ("q3", "q4"); ("q5", "q6"); ("q7", "q8"); ("q9", "q10")] /\
    Forall (fun e =>
      score e == (inject_Z (resp (pair_a (dimension e)))
                  - inject_Z (resp (pair_b (dimension e)))) / 4 /\
      consistency e == (inject_Z (resp (pair_a (dimension e)))
                        + inject_Z (resp (pair_b (dimension e)))) / 4)
      (breakdown r) /\
    overall r == fold_right Qplus 0 (map score (breakdown r)) / 5 /\
    overallConsistency r == fold_right Qplus 0 (map consistency (breakdown r)) / 5.
Proof.
  destruct (calculate_answered lang checked resp Hall) as [vals H].
  eexists. split; [exact H|]. cbn [breakdown overall overallConsistency].
  split; [reflexivity|]. split; [|split].
  - apply Forall_map, List.Forall_forall. intros p _. cbn [expected_entry score consistency dimension].
    split; [rewrite inject_Z_sub | rewrite inject_Z_plus]; reflexivity.
  - apply js_mean_sum. rewrite !length_map. reflexivity.
  - apply js_mean_sum. rewrite !length_map. reflexivity.
Qed.

Lemma calculate_dimension_scores_witness :
  (forall q, q ∈ question_ids -> scenario3 q = Some (scenario3_resp q)) /\
  exists r, calculate "en" scenario3 = Some (Calculated r) /\
    map (fun e => (pair_a (dimension e), pair_b (dimension e))) (breakdown r) =
      [("q1", "q2"); ("q3", "q4"); ("q5", "q6"); ("q7", "q8"); ("q9", "q10")] /\
    Forall (fun e =>
      score e == (inject_Z (scenario3_resp (pair_a (dimension e)))
                  - inject_Z (scenario3_resp (pair_b (dimension e)))) / 4 /\
      consistency e == (inject_Z (scenario3_resp (pair_a (dimension e)))
                        + inject_Z (scenario3_resp (pair_b (dimension e)))) / 4)
      (breakdown r) /\
    overall r == fold_right Qplus 0 (map score (breakdown r)) / 5 /\
    overallConsistency r == fold_right Qplus 0 (map consistency (breakdown r)) / 5.
Proof.
  split; [exact scenario3_answered|].
  apply (calculate_dimension_scores "en" scenario3 scenario3_resp scenario3_answered).
Defined.

(** C8: on a form whose ten answers are integers in [[-2, 2]], every
    dimension score and consistency is a multiple of [0.25] in [[-1, 1]],
    and the overall score and overall consistency lie in [[-1, 1]]. *)
Theorem calculate_quarter_bounds (lang : string) (checked : form) (resp : string -> Z)
    (Hall : forall q, q ∈ question_ids -> checked q = Some (resp q))
    (Hrange : forall q, q ∈ question_ids -> (-2 <= resp q <= 2)%Z) :
  exists r, calculate lang checked = Some (Calculated r) /\
    Forall (fun e =>
      ((exists k : Z, score e == inject_Z k * 0.25) /\ -1 <= score e <= 1) /\
      ((exists k : Z, consistency e == inject_Z k * 0.25) /\ -1 <= consistency e <= 1))
      (breakdown r) /\
    -1 <= overall r <= 1 /\ -1 <= overallConsistency r <= 1.
Proof.
  destruct (calculate_answered lang checked resp Hall) as [vals H].
  assert (Forall (fun e =>
      ((exists k : Z, score e == inject_Z k * 0.25) /\ -1 <= score e <= 1) /\
      ((exists k : Z, consistency e == inject_Z k * 0.25) /\ -1 <= consistency e <= 1))
      (map (expected_entry lang resp) DIMENSION_PAIRS)) as Hf.
  { apply Forall_map. eapply Forall_impl; [exact pairs_in_question_ids|].
    intros p [Ha Hb]. apply expected_entry_quarters; apply Hrange; assumption. }
  eexists. split; [exact H|]. cbn [breakdown overall overallConsistency].
  split; [exact Hf|]. split.
  - apply js_mean_range; [rewrite !length_map; reflexivity|].
    apply Forall_map. eapply Forall_impl; [exact Hf|]. intros e [[_ He] _]. exact He.
  - apply js_mean_range; [rewrite !length_map; reflexivity|].
    apply Forall_map. eapply Forall_impl; [exact Hf|]. intros e [_ [_ He]]. exact He.
Qed.

Lemma calculate_quarter_bounds_witness :
  (forall q, q ∈ question_ids -> scenario3 q = Some (scenario3_resp q)) /\
  (forall q, q ∈ question_ids -> (-2 <= scenario3_resp q <= 2)%Z) /\
  exists r, calculate "de" scenario3 = Some (Calculated r) /\
    Forall (fun e =>
      ((exists k : Z, score e == inject_Z k * 0.25) /\ -1 <= score e <= 1) /\
      ((exists k : Z, consistency e == inject_Z k * 0.25) /\ -1 <= consistency e <= 1))
      (breakdown r) /\
    -1 <= overall r <= 1 /\ -1 <= overallConsistency r <= 1.
Proof.
  split; [exact scenario3_answered|]. split; [exact scenario3_range|].
  exact (calculate_quarter_bounds "de" scenario3 scenario3_resp
           scenario3_answered scenario3_range).
Defined.

(** ** Language independence of the numbers *)

(** The numbers of one breakdown entry: its pair, score and consistency. *)
Definition entry_numbers (e : breakdown_entry) : dimension_pair * Q * Q :=
  (dimension e, score e, consistency e).

(** Everything numeric a calculation outcome carries: nothing for an
    alert; the overall score and consistency, the entries' numbers and the
    recorded responses for a result. *)
Definition outcome_numbers (o : option calc_outcome)
    : option (option (Q * Q * list (dimension_pair * Q * Q) * gmap string Z)) :=
  (fun c => match c with
            | Alerted _ => None
            | Calculated r => Some (overall r, overallConsistency r,
                                    map entry_numbers (breakdown r), responses r)
            end) <$> o.

Lemma mapM_fmap_ext {A B C} (f g : A -> option B) (h : B -> C) (l : list A) :
  (forall x, h <$> f x = h <$> g x) ->
  map h <$> mapM f l = map h <$> mapM g l.
Proof.
  intros Hfg. induction l as [|x l IH]; [reflexivity|]. simpl.
  specialize (Hfg x).
  destruct (f x) as [b1|], (g x) as [b2|]; simpl in *; try discriminate; [|reflexivity].
  injection Hfg as Hb.
  destruct (mapM f l) as [l1|], (mapM g l) as [l2|]; simpl in *; try discriminate;
    [|reflexivity].
  injection IH as Hl. simpl. rewrite Hb, Hl. reflexivity.
Qed.

Lemma dim_entry_numbers (lang1 lang2 : string) (vals : gmap string Z) (p : dimension_pair) :
  entry_numbers <$> dim_entry lang1 vals p = entry_numbers <$> dim_entry lang2 vals p.
Proof.
  unfold dim_entry. destruct (vals !! pair_a p), (vals !! pair_b p); reflexivity.
Qed.

(** C7: two runs of [calculate] on the same form in any two languages
    carry the same numbers: same overall score and consistency, same
    scores and consistencies per dimension, same recorded responses (and
    both end in an alert when an answer is missing). *)
Theorem calculate_language_noninterference (lang1 lang2 : string) (checked : form) :
  outcome_numbers (calculate lang1 checked) = outcome_numbers (calculate lang2 checked).
Proof.
  unfold calculate. destruct (collect checked) as [vals|]; [|reflexivity].
  cbv beta iota.
  pose proof (mapM_fmap_ext (dim_entry lang1 vals) (dim_entry lang2 vals)
                entry_numbers DIMENSION_PAIRS (dim_entry_numbers lang1 lang2 vals)) as Hm.
  destruct (mapM (dim_entry lang1 vals) DIMENSION_PAIRS) as [bd1|],
           (mapM (dim_entry lang2 vals) DIMENSION_PAIRS) as [bd2|];
    simpl in Hm; try discriminate; [|reflexivity].
  injection Hm as Hm. simpl. unfold outcome_numbers. simpl.
  assert (map score bd1 = map score bd2) as Hs.
  { change score with (fun e => snd (fst (entry_numbers e))).
    rewrite <- !(map_map entry_numbers (fun t => snd (fst t))), Hm. reflexivity. }
  assert (map consistency bd1 = map consistency bd2) as Hc.
  { change consistency with (fun e => snd (entry_numbers e)).
    rewrite <- !(map_map entry_numbers snd), Hm. reflexivity. }
  rewrite Hs, Hc, Hm. reflexivity.
Qed.

(** ** Unanswered questions *)

(** A form with every question answered [0] except [q]. *)
Definition form_without (q : string) : form :=
  fun q' => if String.eqb q' q then None else Some 0%Z.

(** C4 (as the code has it): as soon as one question of [q1..q10] is
    unanswered, [calculate] produces no result, only the alert text of the
    language's table; the alert is the same whichever question is missing. *)
Theorem calculate_missing_alerts (lang : string) (checked : form) (q : string) :
  q ∈ question_ids -> checked q = None ->
  calculate lang checked = Some (Alerted (field (getTranslations lang) t_alert)).
Proof.
  intros Hq Hn. unfold calculate, collect.
  rewrite (collect_go_missing checked question_ids ∅ q Hq Hn). reflexivity.
Qed.

Lemma calculate_missing_alerts_witness :
  "q7" ∈ question_ids /\ form_without "q7" "q7" = None /\
  calculate "en" (form_without "q7") =
    Some (Alerted (field (getTranslations "en") t_alert)).
Proof.
  assert ("q7" ∈ question_ids) as Hq
    by (rewrite question_ids_eq; vm_compute; set_solver).
  split; [exact Hq|]. split; [reflexivity|].
  exact (calculate_missing_alerts "en" (form_without "q7") "q7" Hq eq_refl).
Defined.

(** C4 as stated fails: with [q7] unanswered the outcome is the plain
    alert text, identical to the outcome with [q1] unanswered, so it does
    not identify the missing question. *)
Lemma missing_q7_alert_not_structured :
  calculate "en" (form_without "q7") =
    Some (Alerted (Some "Please answer all questions.")) /\
  calculate "en" (form_without "q7") = calculate "en" (form_without "q1").
Proof. split; vm_compute; reflexivity. Qed.

(** ** Segment text lookup *)

(** Which entry of an [en]/[de]/[fr] table a language code reads. *)
Definition lang_choice (lang : string) : jsprop nat :=
  js_or_en [("en", 0%nat); ("de", 1%nat); ("fr", 2%nat)] lang.

Lemma js_or_en_3 {A} (a b c : A) (lang : string) :
  js_or_en [("en", a); ("de", b); ("fr", c)] lang =
  match lang_choice lang with
  | Own 0%nat => Own a
  | Own 1%nat => Own b
  | Own _ => Own c
  | Inherited k => Inherited k
  | Undefined => Undefined
  end.
Proof.
  unfold lang_choice, js_or_en, js_get. simpl.
  destruct (String.eqb lang "en"), (String.eqb lang "de"), (String.eqb lang "fr");
    simpl; try reflexivity;
    destruct (bool_decide (lang ∈ object_prototype_keys)); reflexivity.
Qed.

Lemma lang_choice_cases (lang : string) :
  lang ∉ object_prototype_keys ->
  lang_choice lang = Own 0%nat \/ lang_choice lang = Own 1%nat \/
  lang_choice lang = Own 2%nat.
Proof.
  intros Hk. unfold lang_choice, js_or_en, js_get. simpl.
  destruct (String.eqb lang "en"), (String.eqb lang "de"), (String.eqb lang "fr");
    simpl; auto;
    rewrite bool_decide_eq_false_2 by exact Hk; simpl; auto.
Qed.

Lemma lang_choice_prototype (lang : string) :
  lang ∈ object_prototype_keys -> lang_choice lang = Inherited lang.
Proof.
  intros Hk. unfold lang_choice, js_or_en, js_get. simpl.
  destruct (String.eqb lang "en") eqn:Een.
  { apply String.eqb_eq in Een. subst. vm_compute in Hk. set_solver. }
  destruct (String.eqb lang "de") eqn:Ede.
  { apply String.eqb_eq in Ede. subst. vm_compute in Hk. set_solver. }
  destruct (String.eqb lang "fr") eqn:Efr.
  { apply String.eqb_eq in Efr. subst. vm_compute in Hk. set_solver. }
  rewrite bool_decide_eq_true_2 by exact Hk. reflexivity.
Qed.

Lemma Qle_bool_compat (a x y : Q) :
  x == y -> Qle_bool a x = Qle_bool a y /\ Qle_bool x a = Qle_bool y a.
Proof.
  intros Hxy. split.
  - destruct (Qle_bool a x) eqn:E1, (Qle_bool a y) eqn:E2; try reflexivity;
      [apply Qle_bool_iff in E1; apply Qle_bool_false in E2
      |apply Qle_bool_false in E1; apply Qle_bool_iff in E2]; lra.
  - destruct (Qle_bool x a) eqn:E1, (Qle_bool y a) eqn:E2; try reflexivity;
      [apply Qle_bool_iff in E1; apply Qle_bool_false in E2
      |apply Qle_bool_false in E1; apply Qle_bool_iff in E2]; lra.
Qed.

Lemma search_segments_compat (segs : list segment) (x y : Q) :
  x == y -> search_segments segs x = search_segments segs y.
Proof.
  intros Hxy. unfold search_segments.
  assert (List.find (seg_matches x) segs = List.find (seg_matches y) segs) as ->;
    [|reflexivity].
  induction segs as [|s segs IH]; simpl; [reflexivity|].
  rewrite IH. unfold seg_matches.
  destruct (Qle_bool_compat (seg_min s) x y Hxy) as [-> _].
  destruct (Qle_bool_compat (seg_max s) x y Hxy) as [_ ->].
  reflexivity.
Qed.

Lemma clamp_spec (v : Q) :
  (v < -1 /\ clamp v == -1) \/ (1 < v /\ clamp v == 1) \/
  (-1 <= v <= 1 /\ clamp v == v).
Proof.
  unfold clamp.
  destruct (Q.min_spec 1 v) as [[H1 H2]|[H1 H2]];
  destruct (Q.max_spec (-1) (Qmin 1 v)) as [[H3 H4]|[H3 H4]];
  destruct (Qlt_le_dec v (-1)); destruct (Qlt_le_dec 1 v);
  first [ left; split; lra | right; left; split; lra | right; right; split; [split|]; lra ].
Qed.

Lemma clamp_idem (v : Q) : clamp (clamp v) == clamp v.
Proof.
  destruct (clamp_spec (clamp v)) as [[H1 H2]|[[H1 H2]|[H1 H2]]];
  destruct (clamp_spec v) as [[H3 H4]|[[H3 H4]|[H3 H4]]]; lra.
Qed.

Lemma search_segments_nonempty (segs : list segment) (c : Q) :
  segs <> [] -> exists seg, seg ∈ segs /\ search_segments segs c = Returns (seg_label seg).
Proof.
  intros Hne. unfold search_segments.
  destruct (List.find (seg_matches c) segs) as [seg|] eqn:Ef.
  - exists seg. split; [|reflexivity].
    apply list_elem_of_In. eapply find_some. exact Ef.
  - destruct (last segs) as [seg|] eqn:El.
    + exists seg. split; [|reflexivity]. apply last_Some_elem_of. exact El.
    + apply last_None in El. contradiction.
Qed.

(** The band of a value when an edge shared by two bands belongs to the
    lower one: the first band is [[lower, upper]], every later band
    [(lower, upper]]. *)
Definition in_band (i : nat) (seg : segment) (v : Q) : Prop :=
  match i with
  | O => seg_min seg <= v
  | S _ => seg_min seg < v
  end /\ v <= seg_max seg.

Definition seg_bounds (seg : segment) : Q * Q := (seg_min seg, seg_max seg).

Lemma segment_tables_resolve (lang : string) (segs : list segment) :
  js_or_en segmentTexts lang = Own segs ->
  field (getTranslations lang) t_segments = Some segs /\
  map seg_bounds segs = map seg_bounds segments_en.
Proof.
  unfold segmentTexts, getTranslations, TRANSLATIONS. rewrite !js_or_en_3.
  destruct (lang_choice lang) as [[|[|]]| |]; intros H; inversion H; subst;
    split; reflexivity.
Qed.

Lemma segment_tables_exist (lang : string) :
  lang ∉ object_prototype_keys -> exists segs, js_or_en segmentTexts lang = Own segs.
Proof.
  intros Hk. unfold segmentTexts. rewrite js_or_en_3.
  destruct (lang_choice_cases lang Hk) as [-> | [-> | ->]]; eauto.
Qed.

Ltac band_cases :=
  repeat (match goal with
          | |- context [Qle_bool ?a ?b] =>
              let E := fresh "E" in
              destruct (Qle_bool a b) eqn:E;
              [apply Qle_bool_iff in E | apply Qle_bool_false in E]
          end; cbn [andb seg_label]; try (exfalso; lra)).

Ltac pick_band k :=
  exists k; eexists; split; [reflexivity|]; split; [reflexivity|]; split;
  [ unfold in_band; cbn [seg_min seg_max]; split; lra
  | let j := fresh "j" in let s := fresh "s" in
    let Hj := fresh "Hj" in let Hin := fresh "Hin" in
    intros j s Hj Hin;
    do 11 (destruct j as [|j];
           [ simpl in Hj; injection Hj as <-; unfold in_band in Hin;
             cbn [seg_min seg_max] in Hin; first [reflexivity | exfalso; lra]
           | ]);
    discriminate ].

Lemma search_band (segs : list segment) (v : Q) :
  map seg_bounds segs = map seg_bounds segments_en -> -1 <= v <= 1 ->
  exists i seg, segs !! i = Some seg /\
    search_segments segs v = Returns (seg_label seg) /\ in_band i seg v /\
    forall j seg', segs !! j = Some seg' -> in_band j seg' v -> j = i.
Proof.
  intros Hb [Hlo Hhi].
  do 11 (destruct segs as [|[? ? ?] segs]; [discriminate|]).
  destruct segs; [|discriminate].
  cbn in Hb. injection Hb; intros; subst.
  unfold search_segments. cbn [List.find]. unfold seg_matches.
  cbn [seg_min seg_max]. band_cases;
  first [ pick_band 0%nat | pick_band 1%nat | pick_band 2%nat | pick_band 3%nat
        | pick_band 4%nat | pick_band 5%nat | pick_band 6%nat | pick_band 7%nat
        | pick_band 8%nat | pick_band 9%nat | pick_band 10%nat ].
Qed.

(** C2 (as the code has it): for a language whose segment table is found,
    every value [v] in [[-1, 1]] lies in exactly one band, where the first
    band is closed and every later band is open below and closed above, and
    both [getSegmentText]s return that band's label; so a value on an edge
    shared by two bands gets the lower band. *)
Theorem segment_text_lower_band (lang : string) (segs : list segment) (v : Q) :
  js_or_en segmentTexts lang = Own segs -> -1 <= v <= 1 ->
  exists i seg, segs !! i = Some seg /\
    getSegmentText v lang = Returns (seg_label seg) /\
    getSegmentText_wc v lang = Returns (seg_label seg) /\
    in_band i seg v /\
    forall j seg', segs !! j = Some seg' -> in_band j seg' v -> j = i.
Proof.
  intros Hs Hv.
  destruct (segment_tables_resolve lang segs Hs) as [Ht Hb].
  assert (clamp v == v) as Hc.
  { destruct (clamp_spec v) as [[? ?]|[[? ?]|[? ?]]]; [lra|lra|assumption]. }
  destruct (search_band segs v Hb Hv) as (i & seg & Hi & Hsearch & Hin & Huniq).
  exists i, seg. split; [exact Hi|]. split; [|split; [|split; [exact Hin|exact Huniq]]].
  - unfold getSegmentText. rewrite Hs. rewrite (search_segments_compat _ _ _ Hc). exact Hsearch.
  - unfold getSegmentText_wc. rewrite Ht. rewrite (search_segments_compat _ _ _ Hc). exact Hsearch.
Qed.

Lemma segment_text_lower_band_witness :
  js_or_en segmentTexts "fr" = Own segments_fr /\ -1 <= -0.818 <= 1 /\
  exists i seg, segments_fr !! i = Some seg /\
    getSegmentText (-0.818) "fr" = Returns (seg_label seg) /\
    getSegmentText_wc (-0.818) "fr" = Returns (seg_label seg) /\
    in_band i seg (-0.818) /\
    forall j seg', segments_fr !! j = Some seg' -> in_band j seg' (-0.818) -> j = i.
Proof.
  assert (js_or_en segmentTexts "fr" = Own segments_fr) as Hs by reflexivity.
  assert (-1 <= -0.818 <= 1) as Hv by lra.
  split; [exact Hs|]. split; [exact Hv|].
  exact (segment_text_lower_band "fr" segments_fr (-0.818) Hs Hv).
Defined.

(** C2 as stated fails: [-0.818] is the lower edge of the second band
    [[-0.818, -0.636)], yet the lookup returns the first band's label. *)
Lemma shared_edge_not_in_higher_band :
  exists seg, segments_en !! 1%nat = Some seg /\
    seg_min seg <= -0.818 < seg_max seg /\
    getSegmentText (-0.818) "en" <> Returns (seg_label seg) /\
    getSegmentText (-0.818) "en" =
      Returns "Severe hallucination risk - critical factual errors".
Proof.
  eexists. split; [reflexivity|]. cbn [seg_min seg_max].
  split; [split; lra|]. split.
  - vm_compute. discriminate.
  - vm_compute. reflexivity.
Qed.

(** C9: for any language code that is not an [Object.prototype] member,
    both segment lookups return a label of the language's table for every
    value: the value is clamped into [[-1, 1]] first (so the lookup of [v]
    is the lookup of its clamp), and when no segment matches the label of
    the last segment is returned. *)
Theorem segment_text_total (lang : string) (v : Q) :
  lang ∉ object_prototype_keys ->
  exists segs l, js_or_en segmentTexts lang = Own segs /\
    getSegmentText v lang = Returns l /\ getSegmentText_wc v lang = Returns l /\
    l ∈ map seg_label segs /\
    -1 <= clamp v <= 1 /\ (v < -1 -> clamp v == -1) /\ (1 < v -> clamp v == 1) /\
    getSegmentText v lang = getSegmentText (clamp v) lang /\
    (List.find (seg_matches (clamp v)) segs = None ->
       exists seg, last segs = Some seg /\ l = seg_label seg).
Proof.
  intros Hk. destruct (segment_tables_exist lang Hk) as [segs Hs].
  destruct (segment_tables_resolve lang segs Hs) as [Ht Hb].
  assert (segs <> []) as Hne by (intros ->; discriminate Hb).
  destruct (search_segments_nonempty segs (clamp v) Hne) as (seg & Hin & Hsearch).
  exists segs, (seg_label seg).
  split; [exact Hs|].
  assert (getSegmentText v lang = Returns (seg_label seg)) as Hg
    by (unfold getSegmentText; rewrite Hs; exact Hsearch).
  split; [exact Hg|]. split.
  { unfold getSegmentText_wc. rewrite Ht. exact Hsearch. }
  split; [apply list_elem_of_In, in_map, list_elem_of_In; exact Hin|].
  split; [destruct (clamp_spec v) as [[? ?]|[[? ?]|[? ?]]]; split; lra|].
  split; [intros; destruct (clamp_spec v) as [[? ?]|[[? ?]|[? ?]]]; lra|].
  split; [intros; destruct (clamp_spec v) as [[? ?]|[[? ?]|[? ?]]]; lra|].
  split.
  - unfold getSegmentText. rewrite Hs.
    apply search_segments_compat. symmetry. apply clamp_idem.
  - intros Hf. unfold search_segments in Hsearch. rewrite Hf in Hsearch.
    destruct (last segs) as [s|]; [|discriminate].
    injection Hsearch as Hl. exists s. split; [reflexivity|]. symmetry. exact Hl.
Qed.

Lemma segment_text_total_witness :
  ("xx" ∉ object_prototype_keys) /\
  exists segs l, js_or_en segmentTexts "xx" = Own segs /\
    getSegmentText 7 "xx" = Returns l /\ getSegmentText_wc 7 "xx" = Returns l /\
    l ∈ map seg_label segs /\
    -1 <= clamp 7 <= 1 /\ (7 < -1 -> clamp 7 == -1) /\ (1 < 7 -> clamp 7 == 1) /\
    getSegmentText 7 "xx" = getSegmentText (clamp 7) "xx" /\
    (List.find (seg_matches (clamp 7)) segs = None ->
       exists seg, last segs = Some seg /\ l = seg_label seg).
Proof.
  assert ("xx" ∉ object_prototype_keys) as Hk by (vm_compute; set_solver).
  split; [exact Hk|]. exact (segment_text_total "xx" 7 Hk).
Defined.

(** ** Language codes named on [Object.prototype] *)

(** For a language code that is neither supported nor an
    [Object.prototype] member, every table lookup falls back to English. *)
Lemma unsupported_language_falls_back (lang : string) :
  lang ∉ object_prototype_keys -> lang ∉ ["en"; "de"; "fr"] ->
  lang_choice lang = Own 0%nat /\
  js_or_en segmentTexts lang = Own segments_en /\
  js_or_en consistencyTexts lang = Own consistency_en /\
  js_or_en breakdownConsistencyTexts lang = Own breakdown_en /\
  getTranslations lang = getTranslations "en".
Proof.
  intros Hk Hl.
  assert (lang_choice lang = Own 0%nat) as Hc.
  { unfold lang_choice, js_or_en, js_get. simpl.
    destruct (String.eqb lang "en") eqn:E1; [reflexivity|].
    destruct (String.eqb lang "de") eqn:E2.
    { apply String.eqb_eq in E2. subst. set_solver. }
    destruct (String.eqb lang "fr") eqn:E3.
    { apply String.eqb_eq in E3. subst. set_solver. }
    rewrite bool_decide_eq_false_2 by exact Hk. reflexivity. }
  unfold segmentTexts, consistencyTexts, breakdownConsistencyTexts,
    getTranslations, TRANSLATIONS.
  rewrite !js_or_en_3, Hc. repeat split; reflexivity.
Qed.

(** C10: the English fallback is missed for a language code such as
    ["constructor"], which [obj[lang]] finds on [Object.prototype]: the
    translation lookup yields the inherited member, and the segment lookups
    of the page and of the class and the class's consistency summary all
    throw a [TypeError]. *)
Theorem prototype_language_lookup_throws :
  getTranslations "constructor" = Inherited "constructor" /\
  js_or_en segmentTexts "constructor" = Inherited "constructor" /\
  getSegmentText 0 "constructor" = Throws_TypeError /\
  getSegmentText_wc 0 "constructor" = Throws_TypeError /\
  getConsistencySummary 0 [] "constructor" = Throws_TypeError.
Proof. repeat split; vm_compute; reflexivity. Qed.

(** ** Gauge *)

Lemma clamp_compat (x y : Q) : x == y -> clamp x == clamp y.
Proof.
  intros Hxy.
  destruct (clamp_spec x) as [[? ?]|[[? ?]|[? ?]]];
  destruct (clamp_spec y) as [[? ?]|[[? ?]|[? ?]]]; lra.
Qed.

Lemma clamp_mono (x y : Q) : x <= y -> clamp x <= clamp y.
Proof.
  intros Hxy.
  destruct (clamp_spec x) as [[? ?]|[[? ?]|[? ?]]];
  destruct (clamp_spec y) as [[? ?]|[[? ?]|[? ?]]]; lra.
Qed.

Lemma clamp_range (x : Q) : -1 <= clamp x <= 1.
Proof. destruct (clamp_spec x) as [[? ?]|[[? ?]|[? ?]]]; split; lra. Qed.

Lemma gauge_normalized_range (v : Q) : 0 <= gauge_normalized v <= 1.
Proof.
  unfold gauge_normalized, Qdiv. change (Qinv 2) with (1#2).
  pose proof (clamp_range v). lra.
Qed.

Lemma gauge_normalized_mono (v w : Q) : v <= w -> gauge_normalized v <= gauge_normalized w.
Proof.
  intros H. unfold gauge_normalized, Qdiv. change (Qinv 2) with (1#2).
  pose proof (clamp_mono v w H). lra.
Qed.

Lemma gauge_normalized_compat (v w : Q) : v == w -> gauge_normalized v == gauge_normalized w.
Proof.
  intros H. unfold gauge_normalized. rewrite (clamp_compat v w H). reflexivity.
Qed.

(** The floor [f] of [x]: [f <= x < f + 1]. *)
Lemma Qfloor_bounds (x : Q) : inject_Z (Qfloor x) <= x < inject_Z (Qfloor x) + 1.
Proof.
  split; [apply Qfloor_le|].
  pose proof (Qlt_floor x) as H. rewrite inject_Z_plus in H. exact H.
Qed.


Lemma active_segment_index_compat (v w : Q) :
  v == w -> active_segment_index v = active_segment_index w.
Proof.
  intros H. unfold active_segment_index.
  rewrite (Qfloor_comp (gauge_normalized v * 11) (gauge_normalized w * 11));
    [reflexivity|].
  rewrite (gauge_normalized_compat v w H). reflexivity.
Qed.

(** The needle of [setGauge] always points into the gauge's
    270-degree arc, from [-135] degrees at [-1] (and below) to [135]
    degrees at [1] (and above), and it turns monotonically with the value. *)
Theorem needle_angle_range_mono (v w : Q) :
  -135 <= needle_angle v <= 135 /\
  needle_angle (-1) == -135 /\ needle_angle 1 == 135 /\
  (v <= w -> needle_angle v <= needle_angle w).
Proof.
  unfold needle_angle. pose proof (gauge_normalized_range v) as Hr.
  split; [lra|]. split; [vm_compute; reflexivity|]. split; [vm_compute; reflexivity|].
  intros Hvw. pose proof (gauge_normalized_mono v w Hvw). lra.
Qed.

(** The segment [setGauge] marks active is always one of the 11
    drawn segments [0..10], moves monotonically with the value, and is the
    last one, [10], for every value [>= 1] (where the unclamped index
    would be [11]). *)
Theorem active_segment_index_range_mono (v w : Q) :
  (0 <= active_segment_index v <= 10)%Z /\
  (v <= w -> (active_segment_index v <= active_segment_index w)%Z) /\
  (1 <= v -> active_segment_index v = 10%Z /\ Qfloor (gauge_normalized v * 11) = 11%Z).
Proof.
  split; [|split].
  - unfold active_segment_index. lia.
  - intros H. unfold active_segment_index.
    assert (gauge_normalized v * 11 <= gauge_normalized w * 11) as Hm.
    { pose proof (gauge_normalized_mono v w H). lra. }
    apply Qfloor_resp_le in Hm. lia.
  - intros H.
    assert (gauge_normalized v == 1) as Hn.
    { unfold gauge_normalized, Qdiv. change (Qinv 2) with (1#2).
      destruct (clamp_spec v) as [[? ?]|[[? ?]|[? ?]]]; lra. }
    assert (Qfloor (gauge_normalized v * 11) = 11%Z) as Hf.
    { rewrite (Qfloor_comp (gauge_normalized v * 11) 11); [reflexivity|].
      rewrite Hn. reflexivity. }
    unfold active_segment_index. rewrite Hf. split; reflexivity.
Qed.


(** ** The values [calculate] produces, on a grid of twentieths *)

Lemma Hrange_pairs (resp : string -> Z) :
  (forall q, q ∈ question_ids -> (-2 <= resp q <= 2)%Z) ->
  Forall (fun p => (-2 <= resp (pair_a p) <= 2)%Z /\ (-2 <= resp (pair_b p) <= 2)%Z)
    DIMENSION_PAIRS.
Proof.
  intros Hr. eapply Forall_impl; [exact pairs_in_question_ids|].
  intros p [Ha Hb]. split; apply Hr; assumption.
Qed.

Lemma calculate_twentieths (lang : string) (checked : form) (resp : string -> Z)
    (Hall : forall q, q ∈ question_ids -> checked q = Some (resp q))
    (Hrange : forall q, q ∈ question_ids -> (-2 <= resp q <= 2)%Z) :
  exists r, calculate lang checked = Some (Calculated r) /\
    (exists K, (-20 <= K <= 20)%Z /\ overall r == inject_Z K / 20) /\
    Forall (fun e => exists k, (-20 <= k <= 20)%Z /\ score e == inject_Z k / 20)
      (breakdown r).
Proof.
  destruct (calculate_answered lang checked resp Hall) as [vals H].
  pose proof (Hrange_pairs resp Hrange) as Hp.
  eexists. split; [exact H|]. cbn [overall breakdown]. split.
  - unfold DIMENSION_PAIRS in *.
    repeat match goal with
           | H : Forall _ (_ :: _) |- _ => apply Forall_cons in H as [[? ?] H]
           end.
    cbn [pair_a pair_b] in *.
    exists (resp "q1" - resp "q2" + (resp "q3" - resp "q4") + (resp "q5" - resp "q6")
            + (resp "q7" - resp "q8") + (resp "q9" - resp "q10"))%Z.
    split; [lia|].
    cbn [map]. rewrite js_mean_five. cbn [expected_entry score pair_a pair_b].
    unfold Qdiv. rewrite !inject_Z_plus, !inject_Z_sub. field.
  - apply Forall_map. eapply Forall_impl; [exact Hp|].
    intros p [Ha Hb]. exists (5 * (resp (pair_a p) - resp (pair_b p)))%Z.
    split; [lia|]. cbn [expected_entry score].
    unfold Qdiv. rewrite !inject_Z_mult, !inject_Z_sub.
    change (inject_Z 5) with 5. field.
Qed.

(** The integers [-20..20]. *)
Definition twentieths_range : list Z := map (fun n => Z.of_nat n - 20)%Z (seq 0 41).

Lemma twentieths_range_cover (P : Z -> bool) :
  forallb P twentieths_range = true -> forall k, (-20 <= k <= 20)%Z -> P k = true.
Proof.
  intros H k Hk. apply forallb_forall with (x := k) in H; [exact H|].
  apply in_map_iff. exists (Z.to_nat (k + 20)). split; [lia|].
  apply in_seq. lia.
Qed.

Lemma getSegmentText_compat (v w : Q) (lang : string) :
  v == w -> getSegmentText v lang = getSegmentText w lang.
Proof.
  intros H. unfold getSegmentText.
  destruct (js_or_en segmentTexts lang); [|reflexivity|reflexivity].
  apply search_segments_compat, clamp_compat, H.
Qed.

(** Whether the segment the gauge marks for [k / 20] carries the label the
    segment lookup returns for it. *)
Definition gauge_label_agrees (segs : list segment) (k : Z) : bool :=
  let v := inject_Z k / 20 in
  match segs !! Z.to_nat (active_segment_index v), search_segments segs (clamp v) with
  | Some seg, Returns l => String.eqb l (seg_label seg)
  | _, _ => false
  end.

Lemma gauge_label_tables :
  forallb (gauge_label_agrees segments_en) twentieths_range = true /\
  forallb (gauge_label_agrees segments_de) twentieths_range = true /\
  forallb (gauge_label_agrees segments_fr) twentieths_range = true.
Proof. vm_compute. repeat split. Qed.

Lemma segment_tables_cases (lang : string) (segs : list segment) :
  js_or_en segmentTexts lang = Own segs ->
  segs = segments_en \/ segs = segments_de \/ segs = segments_fr.
Proof.
  unfold segmentTexts. rewrite js_or_en_3.
  destruct (lang_choice lang) as [[|[|]]| |]; intros H; inversion H; subst; auto.
Qed.

(** For every fully answered form with answers in [[-2, 2]] and
    every language code that is not an [Object.prototype] member, the
    gauge segment [setGauge] highlights for the overall score is the one
    whose label [getSegmentText] prints under the gauge.  (The two use
    different edges: [k * 2/11 - 1] for the gauge, the rounded table edges
    for the text; they disagree for some values off the grid of
    twentieths, such as [-0.8181].) *)
Theorem gauge_marks_overall_band (lang : string) (checked : form) (resp : string -> Z)
    (Hall : forall q, q ∈ question_ids -> checked q = Some (resp q))
    (Hrange : forall q, q ∈ question_ids -> (-2 <= resp q <= 2)%Z)
    (Hk : lang ∉ object_prototype_keys) :
  exists r segs seg, calculate lang checked = Some (Calculated r) /\
    js_or_en segmentTexts lang = Own segs /\
    segs !! Z.to_nat (active_segment_index (overall r)) = Some seg /\
    getSegmentText (overall r) lang = Returns (seg_label seg).
Proof.
  destruct (calculate_twentieths lang checked resp Hall Hrange)
    as (r & Hc & (K & HK & Ho) & _).
  destruct (segment_tables_exist lang Hk) as [segs Hs].
  assert (gauge_label_agrees segs K = true) as Ha.
  { destruct gauge_label_tables as (Hen & Hde & Hfr).
    destruct (segment_tables_cases lang segs Hs) as [ -> | [ -> | -> ] ];
      eapply twentieths_range_cover; eassumption. }
  unfold gauge_label_agrees in Ha.
  assert (active_segment_index (overall r) = active_segment_index (inject_Z K / 20))
    as Hi by (apply active_segment_index_compat; exact Ho).
  assert (getSegmentText (overall r) lang = search_segments segs (clamp (inject_Z K / 20)))
    as Ht by (rewrite (getSegmentText_compat _ _ lang Ho); unfold getSegmentText;
              rewrite Hs; reflexivity).
  destruct (segs !! Z.to_nat (active_segment_index (inject_Z K / 20))) as [seg|] eqn:Eseg;
    [|discriminate].
  destruct (search_segments segs (clamp (inject_Z K / 20))) as [l|]; [|discriminate].
  apply String.eqb_eq in Ha. subst l.
  exists r, segs, seg. rewrite Hi, Ht. repeat split; assumption.
Qed.

Lemma gauge_marks_overall_band_witness :
  (forall q, q ∈ question_ids -> scenario3 q = Some (scenario3_resp q)) /\
  (forall q, q ∈ question_ids -> (-2 <= scenario3_resp q <= 2)%Z) /\
  ("fr" ∉ object_prototype_keys) /\
  exists r segs seg, calculate "fr" scenario3 = Some (Calculated r) /\
    js_or_en segmentTexts "fr" = Own segs /\
    segs !! Z.to_nat (active_segment_index (overall r)) = Some seg /\
    getSegmentText (overall r) "fr" = Returns (seg_label seg).
Proof.
  assert ("fr" ∉ object_prototype_keys) as Hk by (vm_compute; set_solver).
  split; [exact scenario3_answered|]. split; [exact scenario3_range|].
  split; [exact Hk|].
  exact (gauge_marks_overall_band "fr" scenario3 scenario3_resp
           scenario3_answered scenario3_range Hk).
Defined.

(** Off the grid of twentieths the gauge and the text can disagree: at
    [-0.8181] the gauge marks segment [1] while the text is the label of
    segment [0]. *)
Lemma gauge_band_differs_off_grid :
  active_segment_index (-0.8181) = 1%Z /\
  getSegmentText (-0.8181) "en" =
    Returns "Severe hallucination risk - critical factual errors".
Proof. split; vm_compute; reflexivity. Qed.

(** ** Number formatting *)

Lemma Qlt_bool_compat (x y a : Q) : x == y -> Qlt_bool x a = Qlt_bool y a.
Proof.
  intros H. unfold Qlt_bool. destruct (Qle_bool_compat a x y H) as [-> _]. reflexivity.
Qed.

Lemma toFixed2_compat (x y : Q) : x == y -> toFixed2 x = toFixed2 y.
Proof.
  intros H. unfold toFixed2. rewrite (Qlt_bool_compat x y 0 H).
  assert ((if Qlt_bool y 0 then - x else x) == (if Qlt_bool y 0 then - y else y)) as Ha.
  { destruct (Qlt_bool y 0); rewrite H; reflexivity. }
  destruct (Qle_bool_compat (inject_Z (10 ^ 21)) _ _ Ha) as [-> _].
  rewrite (Qfloor_comp ((if Qlt_bool y 0 then - x else x) * 100 + (1 # 2))
             ((if Qlt_bool y 0 then - y else y) * 100 + (1 # 2)));
    [reflexivity|].
  rewrite Ha. reflexivity.
Qed.

(** Whether [formatVal(k / 20)] reads back as [k / 20]. *)
Definition format_round_trips (k : Z) : bool :=
  match formatVal (inject_Z k / 20) with
  | Some s =>
      match decimal_value s with
      | Some q => Qeq_bool q (inject_Z k / 20)
      | None => false
      end
  | None => false
  end.

Lemma format_round_trips_range : forallb format_round_trips twentieths_range = true.
Proof. vm_compute. reflexivity. Qed.

Lemma format_exact_twentieth (v : Q) (k : Z) :
  (-20 <= k <= 20)%Z -> v == inject_Z k / 20 ->
  exists s q, formatVal v = Some s /\ decimal_value s = Some q /\ q == v.
Proof.
  intros Hk Hv.
  pose proof (twentieths_range_cover _ format_round_trips_range k Hk) as H.
  unfold format_round_trips in H. unfold formatVal in *.
  rewrite (toFixed2_compat _ _ Hv).
  destruct (toFixed2 (inject_Z k / 20)) as [s|]; [|discriminate].
  destruct (decimal_value s) as [q|] eqn:Ed; [|discriminate].
  apply Qeq_bool_iff in H. exists s, q. split; [reflexivity|]. split; [exact Ed|].
  rewrite Hv. exact H.
Qed.

(** On a fully answered form with answers in [[-2, 2]], the
    two-decimal text [formatVal] displays for the overall score and for
    every dimension score is exact: read as a decimal numeral it is the
    value itself, nothing is rounded away. *)
Theorem formatVal_exact_on_results (lang : string) (checked : form) (resp : string -> Z)
    (Hall : forall q, q ∈ question_ids -> checked q = Some (resp q))
    (Hrange : forall q, q ∈ question_ids -> (-2 <= resp q <= 2)%Z) :
  exists r, calculate lang checked = Some (Calculated r) /\
    (exists s q, formatVal (overall r) = Some s /\ decimal_value s = Some q /\
                 q == overall r) /\
    Forall (fun e => exists s q, formatVal (score e) = Some s /\
                                 decimal_value s = Some q /\ q == score e)
      (breakdown r).
Proof.
  destruct (calculate_twentieths lang checked resp Hall Hrange)
    as (r & Hc & (K & HK & Ho) & Hs).
  exists r. split; [exact Hc|]. split.
  - exact (format_exact_twentieth _ K HK Ho).
  - eapply Forall_impl; [exact Hs|]. intros e (k & Hk & He).
    exact (format_exact_twentieth _ k Hk He).
Qed.

Lemma formatVal_exact_on_results_witness :
  (forall q, q ∈ question_ids -> scenario3 q = Some (scenario3_resp q)) /\
  (forall q, q ∈ question_ids -> (-2 <= scenario3_resp q <= 2)%Z) /\
  exists r, calculate "en" scenario3 = Some (Calculated r) /\
    (exists s q, formatVal (overall r) = Some s /\ decimal_value s = Some q /\
                 q == overall r) /\
    Forall (fun e => exists s q, formatVal (score e) = Some s /\
                                 decimal_value s = Some q /\ q == score e)
      (breakdown r).
Proof.
  split; [exact scenario3_answered|]. split; [exact scenario3_range|].
  exact (formatVal_exact_on_results "en" scenario3 scenario3_resp
           scenario3_answered scenario3_range).
Defined.

Lemma Qfloor_zero (y : Q) : 0 <= y < 1 -> Qfloor y = 0%Z.
Proof.
  intros Hy. pose proof (Qfloor_bounds y) as [H1 H2].
  assert (inject_Z (Qfloor y) < inject_Z 1) as Hlt by (change (inject_Z 1) with 1; lra).
  assert (inject_Z (-1) < inject_Z (Qfloor y)) as Hgt by (change (inject_Z (-1)) with (-1); lra).
  rewrite <- Zlt_Qlt in Hlt, Hgt. lia.
Qed.

(** A negative value that rounds to zero keeps its sign in the
    display: [formatVal] prints every value strictly between [-0.005] and
    [0] as ["-0.00"], not as ["0.00"]. *)
Theorem formatVal_negative_zero (x : Q) :
  -(1#200) < x < 0 -> formatVal x = Some "-0.00".
Proof.
  intros Hx. unfold formatVal, toFixed2.
  assert (Qlt_bool x 0 = true) as Hlt.
  { unfold Qlt_bool. destruct (Qle_bool 0 x) eqn:E; [|reflexivity].
    apply Qle_bool_iff in E. lra. }
  rewrite Hlt. cbv beta iota zeta.
  assert (Qle_bool (inject_Z (10 ^ 21)) (- x) = false) as Hbig.
  { destruct (Qle_bool (inject_Z (10 ^ 21)) (- x)) eqn:E; [|reflexivity].
    apply Qle_bool_iff in E.
    assert (1 <= inject_Z (10 ^ 21)) as H1 by (vm_compute; discriminate).
    lra. }
  rewrite Hbig. rewrite (Qfloor_zero (- x * 100 + (1 # 2))) by lra.
  reflexivity.
Qed.

Lemma formatVal_negative_zero_witness :
  -(1#200) < -0.001 < 0 /\ formatVal (-0.001) = Some "-0.00".
Proof.
  assert (-(1#200) < -0.001 < 0) as H by lra.
  split; [exact H|]. exact (formatVal_negative_zero (-0.001) H).
Defined.

(** ** Consistency bar colour *)

(** [barColorConsistency] is green exactly up to [|v| = 0.2] and
    red exactly where the breakdown says a dimension has no consistent
    statement ([|v| > 0.5]); so it is green for every value the breakdown
    calls very good, and also for the "good" values with
    [0.1 <= |v| <= 0.2]. *)
Theorem barColorConsistency_levels (v : Q) :
  (barColorConsistency v = "#16a34a" <-> Qabs v <= 0.2) /\
  (barColorConsistency v = "#dc2626" <-> breakdown_level v = Inconsistent) /\
  (barColorConsistency v = "#f59e0b" <-> 0.2 < Qabs v <= 0.5) /\
  (breakdown_level v = VeryGood -> barColorConsistency v = "#16a34a").
Proof.
  unfold barColorConsistency, breakdown_level, Qgt_bool, Qlt_bool,
    CONS_GOOD, CONS_VERY_GOOD.
  cbv zeta. qle_cases; cbn [negb];
  repeat split; intros; first [reflexivity | discriminate | lra | exfalso; lra].
Qed.

(** ** Constructor options *)

(** In [this.options] the spread [...options] overrides the
    computed defaults: [language] is [options.language] whenever that
    property is present (even [''] or [undefined]) and ['en'] only when it
    is absent, and the gauge (likewise the consistency block) is shown when
    the property is absent or holds a truthy value; so
    [{ showGauge: undefined }] or [{ showGauge: 0 }] hides the gauge,
    although [options.showGauge !== false] holds for them. *)
Theorem init_options_spread (options : gmap string jsval) :
  initial_language options = default (JString "en") (options !! "language") /\
  gauge_shown options =
    match options !! "showGauge" with Some v => truthy v | None => true end /\
  consistency_shown options =
    match options !! "showConsistency" with Some v => truthy v | None => true end.
Proof.
  unfold initial_language, gauge_shown, consistency_shown, init_options, opt.
  rewrite !lookup_union.
  split; [|split].
  - destruct (options !! "language"); simplify_map_eq; reflexivity.
  - destruct (options !! "showGauge"); simplify_map_eq; reflexivity.
  - destruct (options !! "showConsistency"); simplify_map_eq; reflexivity.
Qed.

(** ** Page and class agree *)

(** The page's [getSegmentText(value, lang)] and the class's
    [getSegmentText(value)] (with [currentLang = lang]) give the same
    outcome for every value and every language code: the same label, or
    both a [TypeError]. *)
Theorem page_component_segment_text_agree (v : Q) (lang : string) :
  getSegmentText v lang = getSegmentText_wc v lang.
Proof.
  unfold getSegmentText, getSegmentText_wc, getTranslations, segmentTexts, TRANSLATIONS.
  rewrite !js_or_en_3.
  destruct (lang_choice lang) as [[|[|]]| |]; reflexivity.
Qed.

(** For a language code that is not an [Object.prototype] member,
    the class's [getConsistencySummary] returns exactly the page's
    [consistencySummary] text. *)
Theorem page_component_summary_agree (lang : string) (overallCons : Q) (consList : list Q) :
  lang ∉ object_prototype_keys ->
  getConsistencySummary overallCons consList lang =
    Returns (consistencySummary overallCons consList lang).
Proof.
  intros Hk. unfold getConsistencySummary, consistencySummary, getTranslations,
    consistencyTexts, TRANSLATIONS.
  rewrite !js_or_en_3.
  destruct (lang_choice_cases lang Hk) as [-> | [-> | ->]]; reflexivity.
Qed.

Lemma page_component_summary_agree_witness :
  ("de" ∉ object_prototype_keys) /\
  getConsistencySummary 0.75 [1; 0.5] "de" = Returns (consistencySummary 0.75 [1; 0.5] "de").
Proof.
  assert ("de" ∉ object_prototype_keys) as Hk by (vm_compute; set_solver).
  split; [exact Hk|]. exact (page_component_summary_agree "de" 0.75 [1; 0.5] Hk).
Defined.

(** For a language code that is an [Object.prototype] member, the
    page's [consistencySummary] does not throw where the class's
    [getConsistencySummary] does: the messages it joins are [undefined], so
    it returns the empty string, or a single space when some consistency
    exceeds [0.5]. *)
Theorem page_summary_prototype_language (lang : string) (overallCons : Q) (consList : list Q) :
  lang ∈ object_prototype_keys ->
  getConsistencySummary overallCons consList lang = Throws_TypeError /\
  consistencySummary overallCons consList lang =
    if existsb (fun c => Qgt_bool (Qabs c) CONS_GOOD) consList then " " else "".
Proof.
  intros Hk. unfold getConsistencySummary, consistencySummary, getTranslations,
    consistencyTexts, TRANSLATIONS.
  rewrite !js_or_en_3, (lang_choice_prototype lang Hk). split; [reflexivity|].
  unfold consistency_msgs. rewrite ltb_length_filter.
  destruct (summary_level overallCons), (existsb _ consList); reflexivity.
Qed.

Lemma page_summary_prototype_language_witness :
  ("constructor" ∈ object_prototype_keys) /\
  getConsistencySummary 0 [1] "constructor" = Throws_TypeError /\
  consistencySummary 0 [1] "constructor" =
    if existsb (fun c => Qgt_bool (Qabs c) CONS_GOOD) [1] then " " else "".
Proof.
  assert ("constructor" ∈ object_prototype_keys) as Hk by (vm_compute; set_solver).
  split; [exact Hk|]. exact (page_summary_prototype_language "constructor" 0 [1] Hk).
Defined.

(** ** An [SHSCalculator] instance *)

Lemma calculate_cases (lang : string) (checked : form) :
  (exists q, q ∈ question_ids /\ checked q = None /\
     calculate lang checked = Some (Alerted (field (getTranslations lang) t_alert))) \/
  ((forall q, q ∈ question_ids -> checked q = Some (default 0%Z (checked q))) /\
   exists vals, calculate lang checked =
     Some (Calculated (mk_results
       (js_mean (map score (map (expected_entry lang (fun q => default 0%Z (checked q)))
                                DIMENSION_PAIRS)))
       (js_mean (map consistency (map (expected_entry lang (fun q => default 0%Z (checked q)))
                                      DIMENSION_PAIRS)))
       (map (expected_entry lang (fun q => default 0%Z (checked q))) DIMENSION_PAIRS)
       vals))).
Proof.
  destruct (decide (Forall (fun q => is_Some (checked q)) question_ids)) as [Hf|Hn].
  - right.
    assert (forall q, q ∈ question_ids -> checked q = Some (default 0%Z (checked q))) as Hall.
    { intros q Hq. rewrite List.Forall_forall in Hf.
      destruct (Hf q (proj1 (list_elem_of_In _ _) Hq)) as [v ->]. reflexivity. }
    split; [exact Hall|].
    exact (calculate_answered lang checked (fun q => default 0%Z (checked q)) Hall).
  - left. apply not_Forall_Exists in Hn; [|apply _].
    apply List.Exists_exists in Hn as (q & Hin & Hq).
    apply eq_None_not_Some in Hq.
    exists q. split; [apply list_elem_of_In; exact Hin|]. split; [exact Hq|].
    unfold calculate, collect.
    rewrite (collect_go_missing checked question_ids ∅ q); [reflexivity| |exact Hq].
    apply list_elem_of_In. exact Hin.
Qed.


Lemma render_ok_supported (lang : string) :
  lang ∉ object_prototype_keys -> render_ok lang = true.
Proof.
  intros Hk. unfold render_ok, getTranslations, TRANSLATIONS. rewrite js_or_en_3.
  destruct (lang_choice_cases lang Hk) as [-> | [-> | ->]]; reflexivity.
Qed.

Lemma q1_question : "q1" ∈ question_ids.
Proof. rewrite question_ids_eq. set_solver. Qed.

Lemma wc_calculate_empty_form (st : wc_state) :
  wc_form st = empty_form -> wc_calculate st = Some st.
Proof.
  intros Hf. unfold wc_calculate, calculate, collect.
  rewrite (collect_go_missing (wc_form st) question_ids ∅ "q1" q1_question)
    by (rewrite Hf; reflexivity).
  reflexivity.
Qed.





(** [setLanguage(lang)] to a language code that is not an
    [Object.prototype] member re-renders the form and so discards every
    answer, while [this.results] is kept: [getResults()] still returns the
    earlier result (labelled in the earlier language), and a [calculate()]
    right after only alerts. *)
Theorem setLanguage_discards_answers (lang : string) (st : wc_state) :
  lang ∉ object_prototype_keys ->
  exists st', setLanguage lang st = (st', Returns tt) /\
    currentLang st' = lang /\ getResults st' = getResults st /\
    (forall q, wc_form st' q = None) /\ wc_calculate st' = Some st'.
Proof.
  intros Hk. unfold setLanguage. rewrite (render_ok_supported lang Hk).
  eexists. split; [reflexivity|]. split; [reflexivity|]. split; [reflexivity|].
  split; [reflexivity|]. apply wc_calculate_empty_form. reflexivity.
Qed.

Lemma setLanguage_discards_answers_witness :
  ("de" ∉ object_prototype_keys) /\
  exists st', setLanguage "de" (check_radio "q1" 2 (wc_init "en")) = (st', Returns tt) /\
    currentLang st' = "de" /\
    getResults st' = getResults (check_radio "q1" 2 (wc_init "en")) /\
    (forall q, wc_form st' q = None) /\ wc_calculate st' = Some st'.
Proof.
  assert ("de" ∉ object_prototype_keys) as Hk by (vm_compute; set_solver).
  split; [exact Hk|].
  exact (setLanguage_discards_answers "de" (check_radio "q1" 2 (wc_init "en")) Hk).
Defined.



Lemma check_radios_results (l : list (string * Z)) (st : wc_state) :
  wc_results (check_radios l st) = wc_results st /\
  currentLang (check_radios l st) = currentLang st.
Proof.
  unfold check_radios. revert st. induction l as [|[q n] l IH]; intros st; simpl.
  - split; reflexivity.
  - destruct (IH (check_radio q n st)) as [H1 H2]. rewrite H1, H2. split; reflexivity.
Qed.

Lemma check_radios_form (l : list (string * Z)) (st : wc_state) (q : string) :
  is_Some (wc_form (check_radios l st) q) <-> is_Some (wc_form st q) \/ q ∈ map fst l.
Proof.
  unfold check_radios. revert st. induction l as [|[q0 n] l IH]; intros st; simpl.
  - split; [tauto|]. intros [H|H]; [exact H|]. apply elem_of_nil in H. contradiction.
  - rewrite IH. cbn [wc_form check_radio]. rewrite elem_of_cons.
    destruct (String.eqb q q0) eqn:E.
    + apply String.eqb_eq in E. subst. split; [tauto|]. intros _. left. eauto.
    + apply String.eqb_neq in E. tauto.
Qed.

(** After [reset()], [getResults()] is [null], and a [calculate()]
    after the user has checked radios produces a result exactly when every
    question [q1..q10] has been checked since the reset. *)
Theorem reset_then_calculate (st : wc_state) (l : list (string * Z)) :
  getResults (reset st) = None /\
  exists st', wc_calculate (check_radios l (reset st)) = Some st' /\
    (is_Some (getResults st') <-> Forall (fun q => q ∈ map fst l) question_ids).
Proof.
  split; [reflexivity|].
  set (st1 := check_radios l (reset st)).
  destruct (check_radios_results l (reset st)) as [Hr _]. fold st1 in Hr.
  assert (forall q, is_Some (wc_form st1 q) <-> q ∈ map fst l) as Hform.
  { intros q. unfold st1. rewrite check_radios_form. cbn [wc_form reset empty_form].
    split; [intros [[? H]|H]; [discriminate|exact H] | tauto]. }
  destruct (calculate_cases (currentLang st1) (wc_form st1))
    as [(q & Hq & Hn & Hc) | (Hall & vals & Hc)].
  - exists st1. unfold wc_calculate. rewrite Hc. split; [reflexivity|].
    unfold getResults. rewrite Hr. cbn [wc_results reset].
    split; [intros [? H]; discriminate|].
    intros Hf. rewrite List.Forall_forall in Hf.
    assert (is_Some (wc_form st1 q)) as Hs.
    { apply Hform, Hf. apply list_elem_of_In. exact Hq. }
    rewrite Hn in Hs. destruct Hs as [? H]. discriminate.
  - eexists. unfold wc_calculate. rewrite Hc. split; [reflexivity|].
    cbn [getResults wc_results]. split; [|eauto].
    intros _. apply List.Forall_forall. intros q Hq.
    apply Hform. rewrite (Hall q (proj2 (list_elem_of_In _ _) Hq)). eauto.
Qed.





